(** * XEO.Model: lifecycle of a glTF-backed component collection

    A shallow embedding of [src/importing/model.js].  The file defines one
    component class, [XEO.Model], on top of three collaborators that live
    elsewhere in the engine: the [XEO.Component] base class ([error], [fire],
    [destroy]), [XEO.Collection] and the singleton [XEO.GLTFLoader].

    The class is stateful, so its methods are written in a small state monad
    over a [World]: the Model object, the store of collections, the loader
    singleton and a log of every call that leaves the Model. *)

From stdpp Require Import base list strings.
From Stdlib Require Import ZArith.

(** ** JavaScript values *)

(** The values a caller can assign to [src] or put in a config object.
    Numbers only matter through their truthiness, so a number is either an
    integer or NaN. *)
Inductive Value :=
| VUndefined
| VNull
| VBool (b : bool)
| VNumber (n : Z)
| VNaN
| VString (s : string)
| VObject (ref : nat).

(** [!value] is [negb (truthy value)]. *)
Definition truthy (v : Value) : bool :=
  match v with
  | VUndefined | VNull | VNaN => false
  | VBool b => b
  | VNumber n => negb (n =? 0)%Z
  | VString s => negb (String.eqb s "")
  | VObject _ => true
  end.

(** Modelled from the spec: [XEO._isString] is defined outside
    [model.js]; the spec calls the accepted values strings. *)
Definition _isString (v : Value) : bool :=
  match v with
  | VString _ => true
  | _ => false
  end.

#[global] Instance Value_eq_dec : EqDecision Value.
Proof. solve_decision. Defined.

(** ** The world *)

(** Components are opaque handles; collections live in a store and are
    named by their index in it. *)
Abbreviation Component := nat (only parsing).
Abbreviation CollRef := nat (only parsing).

(** The only closure the Model ever hands out is
    [function () { self.fire("loaded"); }]. *)
Inductive Callback := CbFireLoaded.

(** Calls that leave the Model. *)
Inductive Event :=
| EvSuper                                          (* this._super(cfg) *)
| EvNewCollection (r : CollRef)                    (* new XEO.Collection(this.scene) *)
| EvError (msg : string)                           (* this.error(msg) *)
| EvFire (name : string) (args : list Value)       (* this.fire(name, ...) *)
| EvDestroy (c : Component)                        (* component.destroy() *)
| EvSetCollection (r : CollRef)                    (* glTFLoader.setCollection(c) *)
| EvInitWithPath (p : Value)                       (* glTFLoader.initWithPath(p) *)
| EvLoad (userInfo options : Value) (cb : Callback). (* glTFLoader.load(u, o, cb) *)

#[global] Instance Callback_eq_dec : EqDecision Callback.
Proof. solve_decision. Defined.

#[global] Instance Event_eq_dec : EqDecision Event.
Proof. solve_decision. Defined.

(** Every logged call is stamped with the Model's fields as they were when
    the call was made. *)
Record Stamp := {
  ev : Event;
  src_then : Value;
  members_then : list Component
}.

(** A load the loader has accepted and not yet completed. *)
Record Request := {
  req_id : nat;
  req_path : Value;
  req_sink : option CollRef;
  req_callback : Callback
}.

(** Modelled from the spec: [XEO.GLTFLoader] is defined outside
    [model.js].  The loader is a singleton configured with a sink
    collection and a path; [load] begins an asynchronous load and keeps the
    completion callback until the load finishes. *)
Record Loader := {
  ldr_collection : option CollRef;
  ldr_path : Value;
  ldr_issued : nat;
  ldr_pending : list Request
}.

Record Model := {
  _collection : CollRef;
  _src : Value
}.

Record Env := {
  heap : list (list Component);
  next_component : nat;
  glTFLoader : Loader;
  trace : list Stamp
}.

Record World := {
  this : Model;
  env : Env
}.

Definition with_env (f : Env -> Env) (w : World) : World :=
  {| this := this w; env := f (env w) |}.

Definition with_heap (f : list (list Component) -> list (list Component)) (e : Env) : Env :=
  {| heap := f (heap e); next_component := next_component e;
     glTFLoader := glTFLoader e; trace := trace e |}.

Definition with_loader (f : Loader -> Loader) (e : Env) : Env :=
  {| heap := heap e; next_component := next_component e;
     glTFLoader := f (glTFLoader e); trace := trace e |}.

Definition with_trace (f : list Stamp -> list Stamp) (e : Env) : Env :=
  {| heap := heap e; next_component := next_component e;
     glTFLoader := glTFLoader e; trace := f (trace e) |}.

Definition with_next (f : nat -> nat) (e : Env) : Env :=
  {| heap := heap e; next_component := f (next_component e);
     glTFLoader := glTFLoader e; trace := trace e |}.

(** The members of collection [r], in insertion order. *)
Definition coll (e : Env) (r : CollRef) : list Component :=
  default [] (heap e !! r).

(** The members of the Model's own collection. *)
Definition members (w : World) : list Component :=
  coll (env w) (_collection (this w)).

(** The calls logged so far, without their stamps. *)
Definition events (w : World) : list Event := ev <$> trace (env w).

Definition pending (w : World) : list Request := ldr_pending (glTFLoader (env w)).

(** ** A state monad over the world *)

Definition M (A : Type) : Type := World -> A * World.

Definition ret {A} (a : A) : M A := fun w => (a, w).

Definition bind {A B} (m : M A) (k : A -> M B) : M B :=
  fun w => k (fst (m w)) (snd (m w)).

Notation "x <- c ;; k" := (bind c (fun x => k))
  (at level 100, c at next level, right associativity).
Notation "c ;; k" := (bind c (fun _ => k))
  (at level 100, right associativity).

Definition gets {A} (f : World -> A) : M A := fun w => (f w, w).

Definition modify (f : World -> World) : M unit := fun w => (tt, f w).

Definition exec {A} (m : M A) (w : World) : World := snd (m w).

(** Append a call to the log, stamped with the Model's current fields. *)
Definition stamp (w : World) (e : Event) : Stamp :=
  {| ev := e; src_then := _src (this w); members_then := members w |}.

Definition log (e : Event) : M unit :=
  modify (fun w => with_env (with_trace (fun t => t ++ [stamp w e])) w).

(** ** Collaborators *)

(** Modelled from the spec: [XEO.Component] is defined outside
    [model.js].  [error] reports a message and returns; [fire] notifies the
    listeners of an event. *)
Definition error (msg : string) : M unit := log (EvError msg).

Definition fire (name : string) (args : list Value) : M unit := log (EvFire name args).

(** Modelled from the spec: [component.destroy] belongs to
    [XEO.Component].  Destroying a component removes it from the containers
    it belongs to. *)
Definition Component_destroy (c : Component) : M unit :=
  log (EvDestroy c) ;;
  modify (with_env (with_heap (fmap (filter (fun x => x ≠ c))))).

(** Modelled from the spec: [XEO.Collection] is defined outside
    [model.js].  [iterate] visits the members in insertion order; the
    visitor updates a local of the caller, here the accumulator. *)
Definition Collection_iterate {A} (r : CollRef) (visit : A -> Component -> A) (a : A) : M A :=
  gets (fun w => foldl visit a (coll (env w) r)).

(** [add] appends a member and does nothing when it is already present. *)
Definition Collection_add (r : CollRef) (c : Component) : M unit :=
  modify (with_env (with_heap
    (alter (fun l => if decide (c ∈ l) then l else l ++ [c]) r))).

(** [new XEO.Collection(scene)]: a fresh, empty collection. *)
Definition Collection_new (e : Env) : CollRef * Env :=
  (length (heap e), with_heap (fun h => h ++ [[]]) e).

(** The loader's three entry points. *)
Definition GLTFLoader_setCollection (r : CollRef) : M unit :=
  log (EvSetCollection r) ;;
  modify (with_env (with_loader (fun l =>
    {| ldr_collection := Some r; ldr_path := ldr_path l;
       ldr_issued := ldr_issued l; ldr_pending := ldr_pending l |}))).

Definition GLTFLoader_initWithPath (p : Value) : M unit :=
  log (EvInitWithPath p) ;;
  modify (with_env (with_loader (fun l =>
    {| ldr_collection := ldr_collection l; ldr_path := p;
       ldr_issued := ldr_issued l; ldr_pending := ldr_pending l |}))).

Definition GLTFLoader_load (userInfo options : Value) (cb : Callback) : M unit :=
  log (EvLoad userInfo options cb) ;;
  modify (with_env (with_loader (fun l =>
    {| ldr_collection := ldr_collection l; ldr_path := ldr_path l;
       ldr_issued := S (ldr_issued l);
       ldr_pending := ldr_pending l ++
         [{| req_id := ldr_issued l; req_path := ldr_path l;
             req_sink := ldr_collection l; req_callback := cb |}] |}))).

(** ** Arrays local to a method *)

Definition push {A} (c : list A) (x : A) : list A := c ++ [x].

(** [c.pop()]: the last element and the array without it. *)
Definition pop {A} (c : list A) : option (A * list A) :=
  match reverse c with
  | [] => None
  | x :: r => Some (x, reverse r)
  end.

(** ** The Model's methods *)

(** [while (c.length) { c.pop().destroy(); }]; the fuel is the number of
    iterations allowed. *)
Fixpoint destroy_popped (fuel : nat) (c : list Component) : M unit :=
  match fuel with
  | 0 => ret tt
  | S fuel' =>
      match pop c with
      | None => ret tt
      | Some (x, c') => Component_destroy x ;; destroy_popped fuel' c'
      end
  end.

Definition _clear : M unit :=
  r <- gets (fun w => _collection (this w)) ;;
  c <- Collection_iterate r push [] ;;
  destroy_popped (length c) c.

Definition assign_src (value : Value) : M unit :=
  modify (fun w => {| this := {| _collection := _collection (this w); _src := value |};
                      env := env w |}).

(** The [src] property. *)
Definition src_set (value : Value) : M unit :=
  if negb (truthy value) then ret tt
  else if negb (_isString value) then error "Value for 'src' should be a string"
  else
    _clear ;;
    assign_src value ;;
    r <- gets (fun w => _collection (this w)) ;;
    GLTFLoader_setCollection r ;;
    p <- gets (fun w => _src (this w)) ;;
    GLTFLoader_initWithPath p ;;
    GLTFLoader_load VNull VNull CbFireLoaded ;;
    s <- gets (fun w => _src (this w)) ;;
    fire "src" [s].

Definition src_get : M Value := gets (fun w => _src (this w)).

(** The [collection] property. *)
Definition collection_get : M CollRef := gets (fun w => _collection (this w)).

(** A JSON object is its list of fields. *)
Definition _getJSON : M (list (string * Value)) :=
  s <- gets (fun w => _src (this w)) ;;
  ret [("src", s)].

Definition _destroy : M unit := _clear.

(** A config object; an absent [src] reads as [undefined]. *)
Record Config := { cfg_src : Value }.

(** The constructor body.  It runs on a fresh object, whose fields read as
    [undefined] until they are assigned. *)
Definition _init (cfg : Config) (e : Env) : World :=
  let e1 := with_trace (fun t => t ++
              [{| ev := EvSuper; src_then := VUndefined; members_then := [] |}]) e in
  let '(r, e2) := Collection_new e1 in
  let e3 := with_trace (fun t => t ++
              [{| ev := EvNewCollection r; src_then := VUndefined; members_then := [] |}]) e2 in
  let w := {| this := {| _collection := r; _src := VNull |}; env := e3 |} in
  if negb (truthy (cfg_src cfg)) then exec (error "Config missing: 'src'") w
  else if negb (_isString (cfg_src cfg)) then
    exec (error "Value for config 'src' should be a string") w
  else exec (src_set (cfg_src cfg)) w.

(** The callback the loader is given. *)
Definition run_callback (cb : Callback) : M unit :=
  match cb with
  | CbFireLoaded => fire "loaded" []
  end.

(** ** The loader at work *)

Definition find_request (id : nat) (w : World) : option Request :=
  head (filter (fun q => req_id q = id) (pending w)).

Definition drop_request (id : nat) : M unit :=
  modify (with_env (with_loader (fun l =>
    {| ldr_collection := ldr_collection l; ldr_path := ldr_path l;
       ldr_issued := ldr_issued l;
       ldr_pending := filter (fun q => req_id q ≠ id) (ldr_pending l) |}))).

(** Modelled from the spec: the loader creates each runtime object and
    inserts it into the configured sink with [add] as it becomes
    available. *)
Definition Loader_deliver (id : nat) : M unit :=
  q <- gets (find_request id) ;;
  match q with
  | Some q =>
      match req_sink q with
      | Some r =>
          c <- gets (fun w => next_component (env w)) ;;
          modify (with_env (with_next S)) ;;
          Collection_add r c
      | None => ret tt
      end
  | None => ret tt
  end.

(** Modelled from the spec: when a load finishes the loader invokes its
    completion callback, once. *)
Definition Loader_complete (id : nat) : M unit :=
  q <- gets (find_request id) ;;
  match q with
  | Some q => drop_request id ;; run_callback (req_callback q)
  | None => ret tt
  end.

(** A request is stale once a later [load] has been issued. *)
Definition is_stale (id : nat) (w : World) : bool :=
  bool_decide (S id < ldr_issued (glTFLoader (env w))).

(** What can happen to a constructed Model. *)
Inductive Action :=
| ASetSrc (v : Value)
| AGetSrc
| AGetCollection
| AGetJSON
| ADestroy
| ADeliver (id : nat)
| AComplete (id : nat).

Definition do_action (a : Action) : M unit :=
  match a with
  | ASetSrc v => src_set v
  | AGetSrc => src_get ;; ret tt
  | AGetCollection => collection_get ;; ret tt
  | AGetJSON => _getJSON ;; ret tt
  | ADestroy => _destroy
  | ADeliver id => Loader_deliver id
  | AComplete id => Loader_complete id
  end.

Definition run (acts : list Action) (w : World) : World :=
  foldl (fun w a => exec (do_action a) w) w acts.

(** An environment with nothing in it yet. *)
Definition env0 : Env :=
  {| heap := []; next_component := 0;
     glTFLoader := {| ldr_collection := None; ldr_path := VUndefined;
                      ldr_issued := 0; ldr_pending := [] |};
     trace := [] |}.

(** ** Specification functions *)

(** Destroying the components of [l], first to last. *)
Definition destroy_list (l : list Component) (w : World) : World :=
  foldl (fun w c => exec (Component_destroy c) w) w l.

(** The store once the components of [l] have left every collection. *)
Fixpoint purge (l : list Component) (h : list (list Component)) : list (list Component) :=
  match l with
  | [] => h
  | c :: l' => purge l' (filter (fun x => x ≠ c) <$> h)
  end.

(** The log entries left by destroying [l] while the path is [s] and the
    Model's collection starts out as [ms]. *)
Fixpoint destroy_stamps (s : Value) (ms l : list Component) : list Stamp :=
  match l with
  | [] => []
  | c :: l' =>
      {| ev := EvDestroy c; src_then := s; members_then := ms |}
        :: destroy_stamps s (filter (fun x => x ≠ c) ms) l'
  end.

(** The four calls that follow the clearing in the setter, each made with
    the path already [v] and the collection empty. *)
Definition loader_stamps (r : CollRef) (v : Value) : list Stamp :=
  (fun e => {| ev := e; src_then := v; members_then := [] |}) <$>
    [EvSetCollection r; EvInitWithPath v; EvLoad VNull VNull CbFireLoaded;
     EvFire "src" [v]].

(** The request a [load] issued in world [w] for path [v] is filed as. *)
Definition request_of (w : World) (v : Value) : Request :=
  {| req_id := ldr_issued (glTFLoader (env w)); req_path := v;
     req_sink := Some (_collection (this w)); req_callback := CbFireLoaded |}.

(** A config the constructor gives up on. *)
Definition rejected (cfg : Config) : bool :=
  negb (truthy (cfg_src cfg)) || negb (_isString (cfg_src cfg)).

(** The message the constructor reports for a rejected config. *)
Definition init_message (cfg : Config) : string :=
  if negb (truthy (cfg_src cfg)) then "Config missing: 'src'"
  else "Value for config 'src' should be a string".

Definition is_new_collection (e : Event) : Prop :=
  match e with
  | EvNewCollection _ => True
  | _ => False
  end.

#[global] Instance is_new_collection_dec e : Decision (is_new_collection e).
Proof. destruct e; simpl; apply _. Defined.

(** What the [src] field can hold: [null] or a string. *)
Definition path_or_null (v : Value) : Prop := v = VNull ∨ ∃ s, v = VString s.

(** How many loads have been issued so far. *)
Definition issued (w : World) : nat := ldr_issued (glTFLoader (env w)).

(** Every outstanding request was issued by an earlier [load]. *)
Definition requests_issued (w : World) : Prop :=
  Forall (fun q => req_id q < issued w) (pending w).

(** How often [c.destroy()] occurs among the calls [es]. *)
Definition destroy_calls (c : Component) (es : list Event) : nat :=
  length (filter (fun e => e = EvDestroy c) es).

(** The calls logged after the first [n]. *)
Definition events_since (n : nat) (w : World) : list Event := drop n (events w).

(** The world the constructor has built when it reaches the check of
    [cfg.src]. *)
Definition constructed (e : Env) : World :=
  {| this := {| _collection := length (heap e); _src := VNull |};
     env := {| heap := heap e ++ [[]];
               next_component := next_component e;
               glTFLoader := glTFLoader e;
               trace := (trace e ++
                 [{| ev := EvSuper; src_then := VUndefined; members_then := [] |}]) ++
                 [{| ev := EvNewCollection (length (heap e)); src_then := VUndefined;
                     members_then := [] |}] |} |}.

(** A value the setter takes as the new path. *)
Definition accepts (v : Value) : bool := truthy v && _isString v.

(** The path a Model ends up with, read off the assignments alone. *)
Definition path_after (cur : Value) (acts : list Action) : Value :=
  foldl (fun cur a =>
           match a with
           | ASetSrc v => if accepts v then v else cur
           | _ => cur
           end) cur acts.

(** How many of the steps are assignments the setter accepts. *)
Fixpoint accepted_sets (acts : list Action) : nat :=
  match acts with
  | [] => 0
  | ASetSrc v :: rest => (if accepts v then 1 else 0) + accepted_sets rest
  | _ :: rest => accepted_sets rest
  end.

Definition is_src_fire (e : Event) : bool :=
  match e with
  | EvFire name _ => String.eqb name "src"
  | _ => false
  end.

(** How often ["src"] is fired among the calls [es]. *)
Definition src_fires (es : list Event) : nat :=
  length (filter (fun e => is_src_fire e = true) es).

(** What the [src] field holds in practice: [null] or a non-empty string. *)
Definition stored_path (v : Value) : Prop := v = VNull ∨ ∃ s, s ≠ "" ∧ v = VString s.

(** Reading a field of a JSON object; a missing field reads as [undefined]. *)
Fixpoint json_field (k : string) (j : list (string * Value)) : Value :=
  match j with
  | [] => VUndefined
  | (k', v) :: rest => if String.eqb k k' then v else json_field k rest
  end.

(** A serialised Model used as the config of a new one. *)
Definition config_of_json (j : list (string * Value)) : Config :=
  {| cfg_src := json_field "src" j |}.

(** A step the loader takes when it delivers a component. *)
Definition is_delivery (a : Action) : bool :=
  match a with
  | ADeliver _ => true
  | _ => false
  end.

(** ** Sample worlds *)

(** A Model constructed on ["a.gltf"], its load still outstanding. *)
Definition world_a : World := _init {| cfg_src := VString "a.gltf" |} env0.

(** The same Model after its [src] was set to ["b.gltf"] before the first
    load completed. *)
Definition world_ab : World := exec (src_set (VString "b.gltf")) world_a.

(** The Model of [world_a] once the loader has delivered two components
    and completed. *)
Definition world_loaded : World := run [ADeliver 0; ADeliver 0; AComplete 0] world_a.

(** The Model of [world_a] with one component delivered and the load still
    outstanding. *)
Definition world_loading : World := run [ADeliver 0] world_a.

(** * Properties *)

(** ** Local arrays *)

Lemma foldl_push {A} (acc l : list A) : foldl push acc l = acc ++ l.
Proof.
  revert acc. induction l as [|x l IH]; intros acc; simpl.
  - by rewrite app_nil_r.
  - rewrite IH. unfold push. by rewrite <- app_assoc.
Qed.

Lemma pop_snoc {A} (l : list A) x : pop (l ++ [x]) = Some (x, l).
Proof. unfold pop. rewrite reverse_snoc. by rewrite reverse_involutive. Qed.

Lemma filter_keeps_all {A} (P : A -> Prop) `{!∀ x, Decision (P x)} (l : list A) :
  (∀ x, x ∈ l → P x) → filter P l = l.
Proof.
  induction l as [|x l IH]; intros HP; [done|].
  rewrite filter_cons_True by (apply HP; left).
  f_equal. apply IH. intros y Hy. apply HP. by right.
Qed.

Lemma filter_drops_all {A} (P : A -> Prop) `{!∀ x, Decision (P x)} (l : list A) :
  (∀ x, x ∈ l → ¬ P x) → filter P l = [].
Proof.
  induction l as [|x l IH]; intros HP; [done|].
  rewrite filter_cons_False by (apply HP; left).
  apply IH. intros y Hy. apply HP. by right.
Qed.

(** ** Clearing *)

Lemma purge_lookup l h r :
  default [] (purge l h !! r) = filter (fun x => x ∉ l) (default [] (h !! r)).
Proof.
  revert h. induction l as [|c l IH]; intros h; simpl.
  - symmetry. apply filter_keeps_all. intros x _. apply not_elem_of_nil.
  - rewrite IH, list_lookup_fmap. destruct (h !! r) as [ms|]; simpl; [|done].
    rewrite list_filter_filter. apply list_filter_iff. intros x.
    rewrite not_elem_of_cons. tauto.
Qed.

Lemma purge_length l h : length (purge l h) = length h.
Proof.
  revert h. induction l as [|c l IH]; intros h; simpl; [done|].
  by rewrite IH, length_fmap.
Qed.

Lemma destroy_stamps_events s ms l : ev <$> destroy_stamps s ms l = EvDestroy <$> l.
Proof.
  revert ms. induction l as [|c l IH]; intros ms; simpl; [done|].
  by rewrite IH.
Qed.

Lemma destroy_stamps_src s ms l : Forall (fun st => src_then st = s) (destroy_stamps s ms l).
Proof.
  revert ms. induction l as [|c l IH]; intros ms; simpl; constructor; auto.
Qed.

Lemma destroy_list_run l w :
  destroy_list l w =
    {| this := this w;
       env := {| heap := purge l (heap (env w));
                 next_component := next_component (env w);
                 glTFLoader := glTFLoader (env w);
                 trace := trace (env w) ++ destroy_stamps (_src (this w)) (members w) l |} |}.
Proof.
  revert w. induction l as [|c l IH]; intros [m e]; simpl.
  - rewrite app_nil_r. by destruct e.
  - rewrite IH. simpl.
    assert (members (exec (Component_destroy c) {| this := m; env := e |})
            = filter (fun x => x ≠ c) (members {| this := m; env := e |})) as ->.
    { unfold members, coll. simpl. rewrite list_lookup_fmap.
      by destruct (heap e !! _collection m). }
    by rewrite <- app_assoc.
Qed.

(** The loop never runs out of fuel when it starts with the length of the
    array. *)
Lemma destroy_popped_enough n c w :
  length c ≤ n → destroy_popped n c w = (tt, destroy_list (reverse c) w).
Proof.
  revert c w. induction n as [|n IH]; intros c w Hn.
  - destruct c; [done | simpl in Hn; lia].
  - destruct c as [|x c _] using rev_ind; [done|].
    simpl. rewrite pop_snoc, reverse_snoc. simpl.
    rewrite length_app in Hn. simpl in Hn.
    unfold bind at 1. rewrite IH by lia. done.
Qed.

Lemma _clear_run w : _clear w = (tt, destroy_list (reverse (members w)) w).
Proof.
  unfold _clear, bind, Collection_iterate, gets. simpl.
  rewrite foldl_push. simpl. apply destroy_popped_enough. done.
Qed.

Lemma purge_own_members w :
  default [] (purge (reverse (members w)) (heap (env w)) !! _collection (this w)) = [].
Proof.
  rewrite purge_lookup. apply filter_drops_all.
  intros x Hx Hn. apply Hn. by rewrite elem_of_reverse.
Qed.

Lemma _clear_members w : members (exec _clear w) = [].
Proof.
  unfold exec. rewrite _clear_run, destroy_list_run.
  exact (purge_own_members w).
Qed.

(** ** The setter, case by case *)

Lemma src_set_falsy v w : truthy v = false → src_set v w = (tt, w).
Proof. intros Hv. unfold src_set. by rewrite Hv. Qed.

Lemma src_set_not_string v w :
  truthy v = true → _isString v = false →
  src_set v w = error "Value for 'src' should be a string" w.
Proof. intros Ht Hs. unfold src_set. by rewrite Ht, Hs. Qed.

Lemma src_set_accepted v w :
  truthy v = true → _isString v = true →
  exec (src_set v) w =
    {| this := {| _collection := _collection (this w); _src := v |};
       env := {| heap := purge (reverse (members w)) (heap (env w));
                 next_component := next_component (env w);
                 glTFLoader :=
                   {| ldr_collection := Some (_collection (this w));
                      ldr_path := v;
                      ldr_issued := S (ldr_issued (glTFLoader (env w)));
                      ldr_pending := pending w ++ [request_of w v] |};
                 trace := trace (env w)
                   ++ destroy_stamps (_src (this w)) (members w) (reverse (members w))
                   ++ loader_stamps (_collection (this w)) v |} |}.
Proof.
  intros Ht Hs. unfold src_set. rewrite Ht, Hs. simpl.
  unfold exec, bind at 1. rewrite _clear_run. simpl.
  rewrite destroy_list_run.
  pose proof (purge_own_members w) as Hnil.
  destruct w as [[r s] [h n l t]].
  cbv [members coll this env heap _collection] in Hnil.
  cbv [exec bind GLTFLoader_setCollection GLTFLoader_initWithPath GLTFLoader_load
       assign_src fire log modify gets members coll stamp with_env with_trace
       with_loader loader_stamps pending request_of fmap list_fmap
       this env _src _collection heap trace glTFLoader next_component fst snd].
  rewrite !Hnil. rewrite <- !app_assoc. reflexivity.
Qed.

Lemma src_set_cases v w :
  exec (src_set v) w = w
  ∨ exec (src_set v) w = exec (error "Value for 'src' should be a string") w
  ∨ (truthy v = true ∧ _isString v = true).
Proof.
  destruct (truthy v) eqn:Ht.
  - destruct (_isString v) eqn:Hs; [by right; right|].
    right; left. unfold exec. by rewrite src_set_not_string.
  - left. unfold exec. by rewrite src_set_falsy.
Qed.

(** ** The loader's steps *)

Lemma Loader_complete_found id w q :
  find_request id w = Some q →
  exec (Loader_complete id) w = exec (fire "loaded" []) (exec (drop_request id) w).
Proof.
  intros Hq. unfold Loader_complete, exec, bind, gets. simpl. rewrite Hq.
  by destruct (req_callback q).
Qed.

Lemma Loader_complete_missing id w :
  find_request id w = None → exec (Loader_complete id) w = w.
Proof. intros Hq. unfold Loader_complete, exec, bind, gets. simpl. by rewrite Hq. Qed.

Lemma Loader_deliver_cases id w :
  exec (Loader_deliver id) w = w
  ∨ (∃ r, exec (Loader_deliver id) w
          = exec (Collection_add r (next_component (env w))) (with_env (with_next S) w)).
Proof.
  unfold Loader_deliver, exec, bind, gets. simpl.
  destruct (find_request id w) as [q|]; [|by left].
  destruct (req_sink q) as [r|]; [|by left].
  right. by exists r.
Qed.

Lemma add_lookup (h : list (list nat)) r c r' :
  default [] (alter (fun l => if decide (c ∈ l) then l else l ++ [c]) r h !! r')
  = default [] (h !! r')
  ∨ ((c ∉ default [] (h !! r')) ∧
     default [] (alter (fun l => if decide (c ∈ l) then l else l ++ [c]) r h !! r')
     = default [] (h !! r') ++ [c]).
Proof.
  destruct (decide (r = r')) as [->|Hne].
  - rewrite list_lookup_alter_eq. destruct (h !! r') as [l|]; simpl; [|by left].
    destruct (decide (c ∈ l)); [by left | by right].
  - left. by rewrite list_lookup_alter_ne.
Qed.

Lemma find_request_elem id w q :
  find_request id w = Some q → q ∈ pending w ∧ req_id q = id.
Proof.
  unfold find_request. intros H%head_Some_elem_of.
  apply list_elem_of_filter in H. tauto.
Qed.

Lemma find_request_dropped id w : find_request id (exec (drop_request id) w) = None.
Proof.
  unfold find_request, pending. simpl. apply head_None.
  apply filter_drops_all. intros q Hq. apply list_elem_of_filter in Hq. tauto.
Qed.

(** ** One step of the Model's life *)

(** Case analysis on a step: the setter by its three branches, the loader's
    steps by whether the request is there. *)
Ltac step_cases a w :=
  destruct a as [?v| | | | |?id|?id]; simpl;
  [ destruct (src_set_cases v w) as [->|[->|[? ?]]];
    [ | | rewrite src_set_accepted by done ]
  | | |
  | unfold _destroy, exec; rewrite _clear_run, destroy_list_run
  | destruct (Loader_deliver_cases id w) as [->|[?r ->]]
  | let Hq := fresh "Hq" in
    destruct (find_request id w) as [?q|] eqn:Hq;
    [ rewrite (Loader_complete_found _ _ _ Hq)
    | rewrite Loader_complete_missing by done ] ].

Lemma step_members a w :
  members (exec (do_action a) w) = members w
  ∨ members (exec (do_action a) w) = []
  ∨ ((next_component (env w) ∉ members w) ∧
     members (exec (do_action a) w) = members w ++ [next_component (env w)]).
Proof.
  step_cases a w; try by left.
  - right; left. exact (purge_own_members w).
  - right; left. exact (purge_own_members w).
  - destruct (add_lookup (heap (env w)) r (next_component (env w)) (_collection (this w)))
      as [H|[H1 H2]]; [by left|by right;right].
Qed.

Lemma step_next a w :
  next_component (env w) ≤ next_component (env (exec (do_action a) w)).
Proof. step_cases a w; try done. simpl. lia. Qed.

Lemma step_collection a w :
  _collection (this (exec (do_action a) w)) = _collection (this w).
Proof. step_cases a w; done. Qed.

Lemma step_src a w :
  path_or_null (_src (this w)) → path_or_null (_src (this (exec (do_action a) w))).
Proof.
  intros Hw. step_cases a w; try done.
  simpl. destruct v; try discriminate. right. by eexists.
Qed.

Lemma step_trace a w :
  ∃ t, trace (env (exec (do_action a) w)) = trace (env w) ++ t.
Proof.
  step_cases a w; simpl; try (by eexists); exists []; by rewrite app_nil_r.
Qed.

Lemma step_issued a w : issued w ≤ issued (exec (do_action a) w).
Proof. unfold issued. step_cases a w; try done. simpl. lia. Qed.

Lemma step_pending a w q :
  q ∈ pending (exec (do_action a) w) → q ∈ pending w ∨ issued w ≤ req_id q.
Proof.
  unfold pending, issued. step_cases a w; simpl; try (by left).
  - intros [Hin| ->%list_elem_of_singleton]%elem_of_app; [by left|by right].
  - intros Hin%list_elem_of_filter. left. tauto.
Qed.

Lemma step_NoDup a w : NoDup (members w) → NoDup (members (exec (do_action a) w)).
Proof.
  intros Hw. destruct (step_members a w) as [->|[->|[Hn ->]]]; [done|constructor|].
  apply NoDup_app. split; [done|]. split; [|apply NoDup_singleton].
  intros x Hx ->%list_elem_of_singleton. done.
Qed.

(** ** Any number of steps *)

Lemma run_cons a acts w : run (a :: acts) w = run acts (exec (do_action a) w).
Proof. done. Qed.

Lemma run_collection acts w : _collection (this (run acts w)) = _collection (this w).
Proof.
  revert w. induction acts as [|a acts IH]; intros w; [done|].
  by rewrite run_cons, IH, step_collection.
Qed.

Lemma run_src acts w :
  path_or_null (_src (this w)) → path_or_null (_src (this (run acts w))).
Proof.
  revert w. induction acts as [|a acts IH]; intros w Hw; [done|].
  rewrite run_cons. by apply IH, step_src.
Qed.

Lemma run_trace acts w : ∃ t, trace (env (run acts w)) = trace (env w) ++ t.
Proof.
  revert w. induction acts as [|a acts IH]; intros w.
  - exists []. by rewrite app_nil_r.
  - rewrite run_cons. destruct (IH (exec (do_action a) w)) as [t2 ->].
    destruct (step_trace a w) as [t1 ->]. exists (t1 ++ t2). by rewrite app_assoc.
Qed.

Lemma run_issued acts w : issued w ≤ issued (run acts w).
Proof.
  revert w. induction acts as [|a acts IH]; intros w; [done|].
  rewrite run_cons. etrans; [apply (step_issued a)|apply IH].
Qed.

Lemma run_pending acts w q :
  q ∈ pending (run acts w) → q ∈ pending w ∨ issued w ≤ req_id q.
Proof.
  revert w. induction acts as [|a acts IH]; intros w; [by left|].
  rewrite run_cons. intros [Hq|Hq]%IH.
  - by apply step_pending in Hq.
  - right. etrans; [apply (step_issued a)|done].
Qed.

Lemma run_NoDup acts w : NoDup (members w) → NoDup (members (run acts w)).
Proof.
  revert w. induction acts as [|a acts IH]; intros w Hw; [done|].
  rewrite run_cons. by apply IH, step_NoDup.
Qed.

(** Components that join the collection later are at least as young as the
    loader's next one. *)
Lemma run_fresh n acts w :
  n ≤ next_component (env w) → (∀ c, c ∈ members w → n ≤ c) →
  ∀ c, c ∈ members (run acts w) → n ≤ c.
Proof.
  revert w. induction acts as [|a acts IH]; intros w Hn Hw; [done|].
  rewrite run_cons. apply IH.
  - etrans; [done|apply step_next].
  - intros c. destruct (step_members a w) as [->|[->|[_ ->]]].
    + apply Hw.
    + by intros ?%elem_of_nil.
    + intros [Hc| ->%list_elem_of_singleton]%elem_of_app; [by apply Hw|done].
Qed.

(** ** Construction *)

Lemma members_constructed e : members (constructed e) = [].
Proof.
  unfold members, coll, constructed. simpl.
  by rewrite list_lookup_middle.
Qed.

Lemma _init_unfold cfg e :
  _init cfg e =
    if rejected cfg then exec (error (init_message cfg)) (constructed e)
    else exec (src_set (cfg_src cfg)) (constructed e).
Proof.
  unfold _init, rejected, init_message. simpl.
  destruct (truthy (cfg_src cfg)); simpl; [|done].
  by destruct (_isString (cfg_src cfg)).
Qed.

(** ** What an accepted assignment does *)
Lemma src_set_accepted_events v w :
  truthy v = true → _isString v = true →
  events (exec (src_set v) w)
  = events w ++ (EvDestroy <$> reverse (members w))
    ++ [EvSetCollection (_collection (this w)); EvInitWithPath v;
        EvLoad VNull VNull CbFireLoaded; EvFire "src" [v]].
Proof.
  intros Ht Hs. unfold events. rewrite src_set_accepted by done. simpl.
  by rewrite !fmap_app, destroy_stamps_events.
Qed.
Lemma src_set_accepted_quiet v w :
  truthy v = true → _isString v = true →
  EvFire "loaded" [] ∉ events_since (length (events w)) (exec (src_set v) w).
Proof.
  intros Ht Hs. unfold events_since. rewrite src_set_accepted_events by done.
  rewrite drop_app_length. intros [H|H]%elem_of_app.
  - apply list_elem_of_fmap in H as (c & Hc & _). discriminate.
  - repeat (apply elem_of_cons in H as [H|H]; [discriminate|]).
    by apply elem_of_nil in H.
Qed.
Lemma src_set_accepted_members v w :
  truthy v = true → _isString v = true → members (exec (src_set v) w) = [].
Proof.
  intros Ht Hs. rewrite src_set_accepted by done. exact (purge_own_members w).
Qed.
Lemma src_set_accepted_pending v w :
  truthy v = true → _isString v = true →
  pending (exec (src_set v) w) = pending w ++ [request_of w v].
Proof. intros Ht Hs. unfold pending at 1. by rewrite src_set_accepted. Qed.

Lemma _clear_events w :
  events (exec _clear w) = events w ++ (EvDestroy <$> reverse (members w)).
Proof.
  unfold exec, events. rewrite _clear_run, destroy_list_run. simpl.
  by rewrite fmap_app, destroy_stamps_events.
Qed.

Lemma _clear_empty w : members w = [] → _clear w = (tt, w).
Proof.
  intros Hm. rewrite _clear_run, Hm. done.
Qed.

Lemma _init_rejected cfg e :
  rejected cfg = true →
  _init cfg e = exec (error (init_message cfg)) (constructed e).
Proof. intros Hr. by rewrite _init_unfold, Hr. Qed.
Lemma _init_accepted cfg e :
  rejected cfg = false →
  _init cfg e =
    {| this := {| _collection := length (heap e); _src := cfg_src cfg |};
       env := {| heap := heap e ++ [[]];
                 next_component := next_component e;
                 glTFLoader :=
                   {| ldr_collection := Some (length (heap e));
                      ldr_path := cfg_src cfg;
                      ldr_issued := S (ldr_issued (glTFLoader e));
                      ldr_pending := ldr_pending (glTFLoader e) ++
                        [request_of (constructed e) (cfg_src cfg)] |};
                 trace := trace (env (constructed e))
                   ++ loader_stamps (length (heap e)) (cfg_src cfg) |} |}.
Proof.
  intros Hr. rewrite _init_unfold, Hr.
  unfold rejected in Hr. apply orb_false_elim in Hr as [Ht Hs].
  apply negb_false_iff in Ht, Hs.
  rewrite src_set_accepted by done. by rewrite members_constructed.
Qed.

(** ** Counting destroy calls *)
Lemma destroy_calls_fmap c l :
  destroy_calls c (EvDestroy <$> l) = length (filter (fun x => x = c) l).
Proof.
  unfold destroy_calls. induction l as [|x l IH]; [done|].
  rewrite fmap_cons. destruct (decide (x = c)) as [->|Hne].
  - rewrite !filter_cons_True by done. simpl. by rewrite IH.
  - rewrite !filter_cons_False by congruence. done.
Qed.
Lemma NoDup_occurrences (c : nat) (l : list nat) :
  NoDup l → length (filter (fun x => x = c) l) = if decide (c ∈ l) then 1 else 0.
Proof.
  induction 1 as [|x l Hx Hl IH]; [done|].
  destruct (decide (x = c)) as [->|Hne].
  - rewrite filter_cons_True by done. simpl. rewrite IH.
    rewrite decide_False by done. rewrite decide_True by left. done.
  - rewrite filter_cons_False by done. rewrite IH.
    destruct (decide (c ∈ l)) as [Hc|Hc].
    + rewrite decide_True by (by right). done.
    + rewrite decide_False; [done|]. intros [->|?]%elem_of_cons; done.
Qed.

(** * The claims *)

(** ** Stale completions *)

(** C1, as stated, fails: in [world_ab] the load of ["a.gltf"] has been
    superseded by the load of ["b.gltf"], and completing it still fires
    ["loaded"]. *)
Lemma stale_completion_fires_loaded :
  is_stale 0 world_ab = true
  ∧ req_path <$> find_request 0 world_ab = Some (VString "a.gltf")
  ∧ _src (this world_ab) = VString "b.gltf"
  ∧ events (exec (Loader_complete 0) world_ab) = events world_ab ++ [EvFire "loaded" []].
Proof. by vm_compute. Qed.

(** C1, amended: whenever the loader completes an outstanding request,
    stale or current, its callback fires ["loaded"] exactly once; the
    callback changes neither the Model's fields nor any collection, and the
    request is no longer outstanding afterwards.  The Model keeps no token
    that would tell a superseded load from the current one. *)
Theorem completion_fires_loaded_stale_or_not id w q :
  find_request id w = Some q →
  trace (env (exec (Loader_complete id) w))
    = trace (env w) ++ [stamp w (EvFire "loaded" [])]
  ∧ this (exec (Loader_complete id) w) = this w
  ∧ heap (env (exec (Loader_complete id) w)) = heap (env w)
  ∧ find_request id (exec (Loader_complete id) w) = None.
Proof.
  intros Hq. rewrite (Loader_complete_found _ _ _ Hq).
  repeat split. exact (find_request_dropped id w).
Qed.

(** The stale request of [world_ab] is one the theorem applies to. *)
Lemma completion_fires_loaded_stale_or_not_witness :
  find_request 0 world_ab
    = Some {| req_id := 0; req_path := VString "a.gltf"; req_sink := Some 0;
              req_callback := CbFireLoaded |}
  ∧ is_stale 0 world_ab = true
  ∧ trace (env (exec (Loader_complete 0) world_ab))
    = trace (env world_ab) ++ [stamp world_ab (EvFire "loaded" [])].
Proof.
  split; [reflexivity|]. split; [reflexivity|].
  exact (proj1 (completion_fires_loaded_stale_or_not 0 world_ab _ eq_refl)).
Defined.

(** ** The order of the setter's effects *)

(** C2: for a truthy string, the setter first destroys every member of the
    collection (those calls are stamped with the old path), then records
    the new path, then calls the loader with the collection, now empty, and
    the new path, and last fires ["src"]; ["loaded"] is not fired and the
    request is outstanding when the setter returns. *)
Theorem src_set_effects_in_order v w :
  truthy v = true → _isString v = true →
  trace (env (exec (src_set v) w))
    = trace (env w)
      ++ destroy_stamps (_src (this w)) (members w) (reverse (members w))
      ++ loader_stamps (_collection (this w)) v
  ∧ events (exec (src_set v) w)
    = events w ++ (EvDestroy <$> reverse (members w))
      ++ [EvSetCollection (_collection (this w)); EvInitWithPath v;
          EvLoad VNull VNull CbFireLoaded; EvFire "src" [v]]
  ∧ members (exec (src_set v) w) = []
  ∧ _src (this (exec (src_set v) w)) = v
  ∧ ldr_collection (glTFLoader (env (exec (src_set v) w))) = Some (_collection (this w))
  ∧ ldr_path (glTFLoader (env (exec (src_set v) w))) = v
  ∧ pending (exec (src_set v) w) = pending w ++ [request_of w v]
  ∧ (EvFire "loaded" [] ∉ events_since (length (events w)) (exec (src_set v) w)).
Proof.
  intros Ht Hs.
  split; [by rewrite src_set_accepted|].
  split; [by apply src_set_accepted_events|].
  split; [by apply src_set_accepted_members|].
  split; [by rewrite src_set_accepted|].
  split; [by rewrite src_set_accepted|].
  split; [by rewrite src_set_accepted|].
  split; [by apply src_set_accepted_pending|by apply src_set_accepted_quiet].
Qed.

(** The theorem at a loaded Model whose path is set to ["b.gltf"]. *)
Lemma src_set_effects_in_order_witness :
  truthy (VString "b.gltf") = true
  ∧ _isString (VString "b.gltf") = true
  ∧ events (exec (src_set (VString "b.gltf")) world_loaded)
    = events world_loaded ++ (EvDestroy <$> reverse (members world_loaded))
      ++ [EvSetCollection (_collection (this world_loaded));
          EvInitWithPath (VString "b.gltf");
          EvLoad VNull VNull CbFireLoaded; EvFire "src" [VString "b.gltf"]].
Proof.
  split; [reflexivity|]. split; [reflexivity|].
  exact (proj1 (proj2
    (src_set_effects_in_order (VString "b.gltf") world_loaded eq_refl eq_refl))).
Defined.

(** ** Clearing *)

(** C3, as stated, fails: the members are not destroyed in insertion
    order.  With members [[0; 1]] the calls are [destroy] of [1], then of
    [0]. *)
Lemma clear_destroys_last_inserted_first :
  members world_loaded = [0; 1]
  ∧ events (exec _clear world_loaded)
    = events world_loaded ++ [EvDestroy 1; EvDestroy 0]
  ∧ events (exec _clear world_loaded)
    ≠ events world_loaded ++ (EvDestroy <$> members world_loaded).
Proof. split; [|split]; [reflexivity | reflexivity | by vm_compute]. Qed.

(** C3, amended: [_clear] first copies the membership into a local array,
    without touching the world, then destroys the copied members in reverse
    insertion order, last inserted first; the collection is empty
    afterwards, each destroyed member having left it, and neither the
    Model's fields nor the loader change. *)
Theorem clear_snapshots_then_destroys_in_reverse w :
  Collection_iterate (_collection (this w)) push [] w = (members w, w)
  ∧ trace (env (exec _clear w))
    = trace (env w) ++ destroy_stamps (_src (this w)) (members w) (reverse (members w))
  ∧ events (exec _clear w) = events w ++ (EvDestroy <$> reverse (members w))
  ∧ members (exec _clear w) = []
  ∧ this (exec _clear w) = this w
  ∧ glTFLoader (env (exec _clear w)) = glTFLoader (env w).
Proof.
  split.
  { unfold Collection_iterate, gets. by rewrite foldl_push. }
  split; [|split; [|split; [apply _clear_members|]]].
  - unfold exec. by rewrite _clear_run, destroy_list_run.
  - unfold exec, events. rewrite _clear_run, destroy_list_run. simpl.
    by rewrite fmap_app, destroy_stamps_events.
  - unfold exec. by rewrite _clear_run, destroy_list_run.
Qed.

(** ** ["src"] before ["loaded"] *)

(** C4: the request an accepted assignment issues is still outstanding when
    the setter returns, after ["src"] has been fired and with no ["loaded"]
    fired in between; whatever happens next, when the loader completes that
    request the ["loaded"] it fires comes after the ["src"] of the same
    assignment. *)
Theorem src_fires_before_loaded v w acts q :
  truthy v = true → _isString v = true → requests_issued w →
  find_request (issued w) (run acts (exec (src_set v) w)) = Some q →
  q = request_of w v
  ∧ (EvFire "loaded" [] ∉ events_since (length (events w)) (exec (src_set v) w))
  ∧ (request_of w v ∈ pending (exec (src_set v) w))
  ∧ ∃ post,
      events (exec (Loader_complete (issued w)) (run acts (exec (src_set v) w)))
      = events w
        ++ ((EvDestroy <$> reverse (members w))
            ++ [EvSetCollection (_collection (this w)); EvInitWithPath v;
                EvLoad VNull VNull CbFireLoaded])
        ++ [EvFire "src" [v]] ++ post ++ [EvFire "loaded" []].
Proof.
  intros Ht Hs Hw Hq.
  pose proof (src_set_accepted_pending v w Ht Hs) as Hp.
  split; [|split; [by apply src_set_accepted_quiet|split]].
  - destruct (find_request_elem _ _ _ Hq) as [Hin Hid].
    apply run_pending in Hin as [Hin|Hin].
    + rewrite Hp in Hin. apply elem_of_app in Hin as [Hin|Hin].
      * unfold requests_issued in Hw. rewrite Forall_forall in Hw.
        apply Hw in Hin. lia.
      * by apply list_elem_of_singleton in Hin.
    + unfold issued in *. rewrite src_set_accepted in Hin by done. simpl in Hin. lia.
  - rewrite Hp. apply elem_of_app. right. by apply list_elem_of_singleton.
  - rewrite (Loader_complete_found _ _ _ Hq).
    destruct (run_trace acts (exec (src_set v) w)) as [t Ht2].
    exists (ev <$> t). unfold events in *. simpl. rewrite Ht2.
    rewrite !fmap_app. fold (events (exec (src_set v) w)).
    rewrite src_set_accepted_events by done.
    unfold events. rewrite <- !app_assoc. simpl. done.
Qed.

(** The theorem at a loaded Model that is given a new path, one delivery
    later. *)
Lemma src_fires_before_loaded_witness :
  requests_issued world_loaded
  ∧ find_request (issued world_loaded)
      (run [ADeliver 1] (exec (src_set (VString "b.gltf")) world_loaded))
    = Some (request_of world_loaded (VString "b.gltf"))
  ∧ ∃ post,
      events (exec (Loader_complete (issued world_loaded))
                (run [ADeliver 1] (exec (src_set (VString "b.gltf")) world_loaded)))
      = events world_loaded
        ++ ((EvDestroy <$> reverse (members world_loaded))
            ++ [EvSetCollection (_collection (this world_loaded));
                EvInitWithPath (VString "b.gltf");
                EvLoad VNull VNull CbFireLoaded])
        ++ [EvFire "src" [VString "b.gltf"]] ++ post ++ [EvFire "loaded" []].
Proof.
  assert (requests_issued world_loaded) as Hw by (vm_compute; constructor).
  assert (find_request (issued world_loaded)
            (run [ADeliver 1] (exec (src_set (VString "b.gltf")) world_loaded))
          = Some (request_of world_loaded (VString "b.gltf"))) as Hq
    by (vm_compute; reflexivity).
  split; [exact Hw|]. split; [exact Hq|].
  exact (proj2 (proj2 (proj2
    (src_fires_before_loaded (VString "b.gltf") world_loaded [ADeliver 1]
       (request_of world_loaded (VString "b.gltf")) eq_refl eq_refl Hw Hq)))).
Defined.

(** ** Values the setter turns down *)

(** C5, as stated, fails: [null] is not a string, yet assigning it reports
    no error; the falsy check comes first and returns silently. *)
Lemma src_set_null_reports_nothing :
  _isString VNull = false
  ∧ exec (src_set VNull) world_a = world_a
  ∧ ∀ msg, EvError msg ∉ events (exec (src_set VNull) world_a).
Proof.
  split; [done|]. split; [done|]. intros msg H. vm_compute in H.
  repeat (apply elem_of_cons in H as [H|H]; [discriminate|]).
  by apply elem_of_nil in H.
Qed.

(** C5, amended: for a truthy value that is not a string the setter
    reports one error and does nothing else: the Model's fields, the
    collections and the loader are unchanged, nothing is fired and no load
    is issued. *)
Theorem src_set_truthy_non_string_reported v w :
  truthy v = true → _isString v = false →
  this (exec (src_set v) w) = this w
  ∧ heap (env (exec (src_set v) w)) = heap (env w)
  ∧ next_component (env (exec (src_set v) w)) = next_component (env w)
  ∧ glTFLoader (env (exec (src_set v) w)) = glTFLoader (env w)
  ∧ trace (env (exec (src_set v) w))
    = trace (env w) ++ [stamp w (EvError "Value for 'src' should be a string")].
Proof.
  intros Ht Hs. unfold exec. by rewrite src_set_not_string.
Qed.

(** The theorem at the number [7]. *)
Lemma src_set_truthy_non_string_reported_witness :
  truthy (VNumber 7) = true
  ∧ _isString (VNumber 7) = false
  ∧ trace (env (exec (src_set (VNumber 7)) world_a))
    = trace (env world_a)
      ++ [stamp world_a (EvError "Value for 'src' should be a string")].
Proof.
  split; [reflexivity|]. split; [reflexivity|].
  exact (proj2 (proj2 (proj2 (proj2
    (src_set_truthy_non_string_reported (VNumber 7) world_a eq_refl eq_refl))))).
Defined.

(** C6, as stated, fails: assigning the empty string leaves the log as it
    was, so nothing at all is logged. *)
Lemma src_set_empty_string_logs_nothing :
  truthy (VString "") = false
  ∧ ¬ ∃ st, trace (env (exec (src_set (VString "")) world_a)) = trace (env world_a) ++ [st].
Proof.
  split; [done|]. intros [st H]. apply (f_equal length) in H.
  rewrite length_app in H. vm_compute in H. lia.
Qed.

(** C6, amended: for a falsy value the setter returns at once and in
    silence: the world is unchanged, so nothing is logged or reported,
    nothing is fired and no load is issued. *)
Theorem src_set_falsy_is_silent_noop v w :
  truthy v = false →
  src_set v w = (tt, w)
  ∧ trace (env (exec (src_set v) w)) = trace (env w)
  ∧ this (exec (src_set v) w) = this w
  ∧ members (exec (src_set v) w) = members w
  ∧ glTFLoader (env (exec (src_set v) w)) = glTFLoader (env w).
Proof. intros Hv. unfold exec. by rewrite src_set_falsy. Qed.

(** The theorem at the empty string. *)
Lemma src_set_falsy_is_silent_noop_witness :
  truthy (VString "") = false
  ∧ src_set (VString "") world_loaded = (tt, world_loaded).
Proof.
  split; [reflexivity|].
  exact (proj1 (src_set_falsy_is_silent_noop (VString "") world_loaded eq_refl)).
Defined.

(** ** Destroying the Model *)

(** C7: when the collection holds no member twice, [_destroy] calls
    [destroy] exactly once on every member and on nothing else, and leaves
    the collection empty; a second [_destroy] changes nothing, so it
    reports no error and destroys nothing again. *)
Theorem destroy_is_idempotent w c :
  NoDup (members w) →
  destroy_calls c (events_since (length (events w)) (exec _destroy w))
    = (if decide (c ∈ members w) then 1 else 0)
  ∧ members (exec _destroy w) = []
  ∧ _destroy (exec _destroy w) = (tt, exec _destroy w)
  ∧ events (exec _destroy (exec _destroy w)) = events (exec _destroy w).
Proof.
  intros Hnd. unfold _destroy.
  assert (_clear (exec _clear w) = (tt, exec _clear w)) as Hsecond
    by apply _clear_empty, _clear_members.
  split; [|split; [apply _clear_members|split; [done|]]].
  - unfold events_since. rewrite _clear_events, drop_app_length, destroy_calls_fmap.
    rewrite NoDup_occurrences by (by rewrite reverse_Permutation).
    destruct (decide (c ∈ members w)) as [Hc|Hc].
    + rewrite decide_True; [done|]. by apply elem_of_reverse.
    + rewrite decide_False; [done|]. by rewrite elem_of_reverse.
  - unfold exec at 1. by rewrite Hsecond.
Qed.

(** The theorem at a loaded Model with two members. *)
Lemma destroy_is_idempotent_witness :
  NoDup (members world_loaded)
  ∧ destroy_calls 1 (events_since (length (events world_loaded)) (exec _destroy world_loaded)) = 1
  ∧ _destroy (exec _destroy world_loaded) = (tt, exec _destroy world_loaded).
Proof.
  assert (NoDup (members world_loaded)) as Hnd.
  { replace (members world_loaded) with [0; 1] by (vm_compute; reflexivity).
    apply NoDup_cons. split; [by intros ?%list_elem_of_singleton|].
    apply NoDup_singleton. }
  split; [exact Hnd|].
  destruct (destroy_is_idempotent world_loaded 1 Hnd) as (H1 & _ & H2 & _).
  split; [exact H1 | exact H2].
Defined.

(** ** Assigning the current path again *)

(** C8: assigning the path the Model already has is an assignment like any
    other: every member is destroyed, the collection is emptied, the loader
    is called again and a new request is outstanding; every component that
    is in the collection at any later time is one the collection did not
    hold before. *)
Theorem same_path_clears_and_reloads s w acts c :
  s ≠ "" → _src (this w) = VString s →
  (∀ x, x ∈ members w → x < next_component (env w)) →
  _src (this (exec (src_set (VString s)) w)) = VString s
  ∧ events (exec (src_set (VString s)) w)
    = events w ++ (EvDestroy <$> reverse (members w))
      ++ [EvSetCollection (_collection (this w)); EvInitWithPath (VString s);
          EvLoad VNull VNull CbFireLoaded; EvFire "src" [VString s]]
  ∧ members (exec (src_set (VString s)) w) = []
  ∧ pending (exec (src_set (VString s)) w) = pending w ++ [request_of w (VString s)]
  ∧ issued (exec (src_set (VString s)) w) = S (issued w)
  ∧ (c ∈ members (run acts (exec (src_set (VString s)) w)) → c ∉ members w).
Proof.
  intros Hs Hsrc Hold.
  assert (truthy (VString s) = true) as Ht.
  { simpl. apply negb_true_iff. by apply String.eqb_neq. }
  split; [by rewrite src_set_accepted|].
  split; [by apply src_set_accepted_events|].
  split; [by apply src_set_accepted_members|].
  split; [by apply src_set_accepted_pending|].
  split; [unfold issued; by rewrite src_set_accepted|].
  intros Hc Hin. apply Hold in Hin.
  apply (run_fresh (next_component (env w))) in Hc; [lia| |].
  - by rewrite src_set_accepted.
  - intros x Hx. rewrite src_set_accepted_members in Hx by done.
    by apply elem_of_nil in Hx.
Qed.

(** The theorem at a loaded Model that is given its own path again. *)
Lemma same_path_clears_and_reloads_witness :
  "a.gltf" ≠ ""
  ∧ _src (this world_loaded) = VString "a.gltf"
  ∧ (∀ x, x ∈ members world_loaded → x < next_component (env world_loaded))
  ∧ members (exec (src_set (VString "a.gltf")) world_loaded) = []
  ∧ (2 ∈ members (run [ADeliver 1] (exec (src_set (VString "a.gltf")) world_loaded))
     → 2 ∉ members world_loaded).
Proof.
  assert ("a.gltf" ≠ "") as Hs by discriminate.
  assert (_src (this world_loaded) = VString "a.gltf") as Hsrc
    by (vm_compute; reflexivity).
  assert (∀ x, x ∈ members world_loaded → x < next_component (env world_loaded))
    as Hold.
  { replace (members world_loaded) with [0; 1] by (vm_compute; reflexivity).
    replace (next_component (env world_loaded)) with 2 by (vm_compute; reflexivity).
    intros x Hx. repeat (apply elem_of_cons in Hx as [->|Hx]; [lia|]).
    by apply elem_of_nil in Hx. }
  destruct (same_path_clears_and_reloads "a.gltf" world_loaded [ADeliver 1] 2
              Hs Hsrc Hold) as (_ & _ & Hm & _ & _ & Hnew).
  split; [exact Hs|]. split; [exact Hsrc|]. split; [exact Hold|].
  split; [exact Hm|exact Hnew].
Defined.

(** ** Serialisation *)

(** C9: in every state [_getJSON] returns the one-field object whose
    [src] is the current path and changes nothing; the contents of the
    collections do not enter it; and in every state a constructed Model can
    reach the path is [null] or a string. *)
Theorem getJSON_is_the_path_alone w h cfg e acts :
  _getJSON w = ([("src", _src (this w))], w)
  ∧ fst (_getJSON (with_env (with_heap (fun _ => h)) w)) = fst (_getJSON w)
  ∧ path_or_null (_src (this (run acts (_init cfg e)))).
Proof.
  split; [done|]. split; [done|].
  apply run_src. rewrite _init_unfold.
  destruct (rejected cfg) eqn:Hr.
  - by left.
  - unfold rejected in Hr. apply orb_false_elim in Hr as [Ht Hs].
    apply negb_false_iff in Ht, Hs.
    rewrite src_set_accepted by done. simpl.
    destruct (cfg_src cfg); try discriminate. right. by eexists.
Qed.

(** ** Construction *)

(** C10: every construction creates one new, empty collection, before
    [cfg.src] is looked at; when the config is rejected the constructor
    reports the error, the path stays [null] and the loader is not touched;
    and whatever happens to the Model afterwards, the [collection] getter
    returns that same collection and changes nothing. *)
Theorem init_creates_the_collection_once cfg e acts :
  _collection (this (_init cfg e)) = length (heap e)
  ∧ heap e !! length (heap e) = None
  ∧ heap (env (_init cfg e)) = heap e ++ [[]]
  ∧ (∃ rest,
       events (_init cfg e)
       = (ev <$> trace e) ++ [EvSuper; EvNewCollection (length (heap e))] ++ rest
       ∧ Forall (fun x => ¬ is_new_collection x) rest
       ∧ if rejected cfg then rest = [EvError (init_message cfg)]
         else rest = ev <$> loader_stamps (length (heap e)) (cfg_src cfg))
  ∧ (if rejected cfg
     then _src (this (_init cfg e)) = VNull
          ∧ glTFLoader (env (_init cfg e)) = glTFLoader e
     else _src (this (_init cfg e)) = cfg_src cfg
          ∧ pending (_init cfg e)
            = ldr_pending (glTFLoader e) ++ [request_of (constructed e) (cfg_src cfg)])
  ∧ collection_get (run acts (_init cfg e)) = (length (heap e), run acts (_init cfg e)).
Proof.
  assert (_collection (this (_init cfg e)) = length (heap e)) as Hc.
  { destruct (rejected cfg) eqn:Hr.
    - by rewrite _init_rejected.
    - by rewrite _init_accepted. }
  split; [done|]. split; [by apply lookup_ge_None|].
  split; [|split; [|split]].
  - destruct (rejected cfg) eqn:Hr.
    + by rewrite _init_rejected.
    + by rewrite _init_accepted.
  - destruct (rejected cfg) eqn:Hr.
    + exists [EvError (init_message cfg)]. rewrite _init_rejected by done.
      split; [|split; [|done]].
      * unfold events. simpl. rewrite !fmap_app. by rewrite <- !app_assoc.
      * repeat constructor. by intros [].
    + exists (ev <$> loader_stamps (length (heap e)) (cfg_src cfg)).
      rewrite _init_accepted by done.
      split; [|split; [|done]].
      * unfold events. simpl. rewrite !fmap_app. by rewrite <- !app_assoc.
      * repeat constructor; by intros [].
  - destruct (rejected cfg) eqn:Hr.
    + by rewrite _init_rejected.
    + by rewrite _init_accepted.
  - unfold collection_get, gets. by rewrite run_collection, Hc.
Qed.

(** * Further properties of the Model *)

(** ** The path over a run *)

Lemma accepts_split v : accepts v = true ↔ truthy v = true ∧ _isString v = true.
Proof. unfold accepts. apply andb_true_iff. Qed.

Lemma accepts_stored v : accepts v = true → stored_path v.
Proof.
  intros [Ht Hs]%accepts_split. destruct v; try discriminate.
  right. exists s. split; [|done]. intros ->. discriminate.
Qed.

Lemma stored_accepts v : stored_path v → v = VNull ∨ accepts v = true.
Proof.
  intros [->|(s & Hs & ->)]; [by left|right].
  unfold accepts. simpl. rewrite andb_true_r. apply negb_true_iff.
  by apply String.eqb_neq.
Qed.

Lemma src_set_rejected_fields v w :
  accepts v = false →
  this (exec (src_set v) w) = this w
  ∧ heap (env (exec (src_set v) w)) = heap (env w)
  ∧ glTFLoader (env (exec (src_set v) w)) = glTFLoader (env w)
  ∧ next_component (env (exec (src_set v) w)) = next_component (env w).
Proof.
  intros Ha. destruct (src_set_cases v w) as [->|[->|[Ht Hs]]]; [done|done|].
  unfold accepts in Ha. rewrite Ht, Hs in Ha. discriminate.
Qed.

Lemma step_path a w :
  _src (this (exec (do_action a) w))
  = match a with
    | ASetSrc v => if accepts v then v else _src (this w)
    | _ => _src (this w)
    end.
Proof.
  destruct a as [v| | | | |id|id]; try done.
  - simpl. destruct (accepts v) eqn:Ha.
    + apply accepts_split in Ha as [Ht Hs]. by rewrite src_set_accepted.
    + by destruct (src_set_rejected_fields v w Ha) as [-> _].
  - simpl. unfold _destroy, exec. by rewrite _clear_run, destroy_list_run.
  - simpl. by destruct (Loader_deliver_cases id w) as [->|[r ->]].
  - simpl. destruct (find_request id w) as [q|] eqn:Hq.
    + by rewrite (Loader_complete_found _ _ _ Hq).
    + by rewrite Loader_complete_missing.
Qed.

Lemma run_path acts w : _src (this (run acts w)) = path_after (_src (this w)) acts.
Proof.
  revert w. induction acts as [|a acts IH]; intros w; [done|].
  rewrite run_cons, IH, step_path. unfold path_after. simpl. by destruct a.
Qed.

Lemma path_after_stored acts v : stored_path v → stored_path (path_after v acts).
Proof.
  revert v. induction acts as [|a acts IH]; intros v Hv; [done|].
  unfold path_after. simpl. apply IH. destruct a; try done.
  destruct (accepts v0) eqn:Ha; [by apply accepts_stored|done].
Qed.

Lemma _init_path cfg e :
  _src (this (_init cfg e)) = if accepts (cfg_src cfg) then cfg_src cfg else VNull.
Proof.
  destruct (rejected cfg) eqn:Hr.
  - rewrite _init_rejected by done. unfold rejected in Hr. unfold accepts.
    destruct (truthy (cfg_src cfg)), (_isString (cfg_src cfg)); try done.
  - rewrite _init_accepted by done. unfold rejected in Hr. unfold accepts.
    destruct (truthy (cfg_src cfg)), (_isString (cfg_src cfg)); try done.
Qed.

Lemma _init_stored cfg e : stored_path (_src (this (_init cfg e))).
Proof.
  rewrite _init_path. destruct (accepts (cfg_src cfg)) eqn:Ha;
    [by apply accepts_stored|by left].
Qed.

Lemma _clear_loader w : glTFLoader (env (exec _clear w)) = glTFLoader (env w).
Proof. unfold exec. by rewrite _clear_run, destroy_list_run. Qed.

(** X1: the [src] getter returns the value of the most recent assignment
    the setter accepted, or the path the Model started with when there was
    none; rejected assignments, [_destroy], the other getters and the
    loader's steps never change it, and reading it changes nothing. *)
Theorem src_get_is_last_accepted acts w :
  src_get (run acts w) = (path_after (_src (this w)) acts, run acts w).
Proof. unfold src_get, gets. by rewrite run_path. Qed.

(** X2: in every state a constructed Model can reach, the [src] getter
    returns [null] or a non-empty string, never the empty string or a value
    of another type. *)
Theorem stored_path_is_null_or_nonempty cfg e acts :
  stored_path (fst (src_get (run acts (_init cfg e)))).
Proof.
  unfold src_get, gets. simpl. rewrite run_path.
  apply path_after_stored, _init_stored.
Qed.

(** X3: constructing a Model from the JSON of another gives it the same
    path, and so the same JSON: a [null] path is rejected as a missing
    config and stays [null], a string is accepted as it is. *)
Theorem getJSON_then_init_restores_path cfg e acts e' :
  _src (this (_init (config_of_json (fst (_getJSON (run acts (_init cfg e))))) e'))
  = _src (this (run acts (_init cfg e)))
  ∧ fst (_getJSON (_init (config_of_json (fst (_getJSON (run acts (_init cfg e))))) e'))
    = fst (_getJSON (run acts (_init cfg e))).
Proof.
  assert (_src (this (_init (config_of_json (fst (_getJSON (run acts (_init cfg e))))) e'))
          = _src (this (run acts (_init cfg e)))) as Hsrc.
  { rewrite _init_path. simpl.
    assert (stored_path (_src (this (run acts (_init cfg e))))) as Hst.
    { rewrite run_path. apply path_after_stored, _init_stored. }
    destruct (stored_accepts _ Hst) as [->| ->]; done. }
  split; [done|]. unfold _getJSON, bind, gets, ret. simpl.
  simpl in Hsrc. by rewrite Hsrc.
Qed.

(** ** Assigning after a rejected construction *)

(** X4: a Model whose config was rejected is as good as new: the first
    accepted assignment leaves it with the same fields, collections and
    loader state as constructing it with that path would have, and the
    same calls are logged, with the constructor's error report in
    between. *)
Theorem set_after_rejected_init cfg e v :
  rejected cfg = true → accepts v = true →
  this (exec (src_set v) (_init cfg e)) = this (_init {| cfg_src := v |} e)
  ∧ heap (env (exec (src_set v) (_init cfg e))) = heap (env (_init {| cfg_src := v |} e))
  ∧ glTFLoader (env (exec (src_set v) (_init cfg e)))
    = glTFLoader (env (_init {| cfg_src := v |} e))
  ∧ events (_init {| cfg_src := v |} e)
    = (ev <$> trace e) ++ [EvSuper; EvNewCollection (length (heap e))]
      ++ [EvSetCollection (length (heap e)); EvInitWithPath v;
          EvLoad VNull VNull CbFireLoaded; EvFire "src" [v]]
  ∧ events (exec (src_set v) (_init cfg e))
    = (ev <$> trace e) ++ [EvSuper; EvNewCollection (length (heap e))]
      ++ [EvError (init_message cfg)]
      ++ [EvSetCollection (length (heap e)); EvInitWithPath v;
          EvLoad VNull VNull CbFireLoaded; EvFire "src" [v]].
Proof.
  intros Hr [Ht Hs]%accepts_split.
  assert (rejected {| cfg_src := v |} = false) as Hr'.
  { unfold rejected. simpl. by rewrite Ht, Hs. }
  assert (members (_init cfg e) = []) as Hm.
  { rewrite _init_rejected by done. exact (members_constructed e). }
  rewrite (_init_accepted _ e Hr'). simpl.
  rewrite src_set_accepted_events by done.
  rewrite src_set_accepted by done. rewrite Hm. simpl.
  rewrite _init_rejected by done. simpl.
  repeat split.
  - unfold events. simpl. rewrite !fmap_app. simpl. by rewrite <- !app_assoc.
  - unfold events. simpl. rewrite !fmap_app. simpl. by rewrite <- !app_assoc.
Qed.

(** The theorem at a Model constructed without [src] and then given
    ["a.gltf"]. *)
Lemma set_after_rejected_init_witness :
  rejected {| cfg_src := VUndefined |} = true
  ∧ accepts (VString "a.gltf") = true
  ∧ this (exec (src_set (VString "a.gltf")) (_init {| cfg_src := VUndefined |} env0))
    = this (_init {| cfg_src := VString "a.gltf" |} env0).
Proof.
  split; [reflexivity|]. split; [reflexivity|].
  exact (proj1 (set_after_rejected_init {| cfg_src := VUndefined |} env0
                  (VString "a.gltf") eq_refl eq_refl)).
Defined.

(** ** Destroying while a load is outstanding *)

(** X5: [_destroy] neither resets the path nor withdraws a load: a request
    outstanding before it is outstanding after it, and when the loader
    completes it ["loaded"] is still fired, after the destroy calls. *)
Theorem destroy_cancels_no_load w id q :
  find_request id w = Some q →
  find_request id (exec _destroy w) = Some q
  ∧ pending (exec _destroy w) = pending w
  ∧ src_get (exec _destroy w) = (_src (this w), exec _destroy w)
  ∧ events (exec (Loader_complete id) (exec _destroy w))
    = events w ++ (EvDestroy <$> reverse (members w)) ++ [EvFire "loaded" []].
Proof.
  intros Hq.
  assert (pending (exec _destroy w) = pending w) as Hp.
  { unfold _destroy, exec. by rewrite _clear_run, destroy_list_run. }
  assert (find_request id (exec _destroy w) = Some q) as Hq'.
  { unfold find_request. by rewrite Hp. }
  split; [done|]. split; [done|]. split.
  - unfold src_get, gets, _destroy, exec. by rewrite _clear_run, destroy_list_run.
  - rewrite (Loader_complete_found _ _ _ Hq'). unfold _destroy.
    unfold events. simpl. rewrite fmap_app. simpl.
    fold (events (exec _clear w)). rewrite _clear_events.
    by rewrite <- app_assoc.
Qed.

(** The theorem at a Model destroyed with its first load outstanding. *)
Lemma destroy_cancels_no_load_witness :
  find_request 0 world_loading = Some (request_of (constructed env0) (VString "a.gltf"))
  ∧ members world_loading = [0]
  ∧ events (exec (Loader_complete 0) (exec _destroy world_loading))
    = events world_loading ++ (EvDestroy <$> reverse (members world_loading))
      ++ [EvFire "loaded" []].
Proof.
  assert (find_request 0 world_loading
          = Some (request_of (constructed env0) (VString "a.gltf"))) as Hq
    by (vm_compute; reflexivity).
  split; [exact Hq|]. split; [vm_compute; reflexivity|].
  exact (proj2 (proj2 (proj2 (destroy_cancels_no_load world_loading 0 _ Hq)))).
Defined.

(** ** One load and one ["src"] per accepted assignment *)

Lemma src_fires_app es1 es2 : src_fires (es1 ++ es2) = src_fires es1 + src_fires es2.
Proof. unfold src_fires. by rewrite filter_app, length_app. Qed.

Lemma src_fires_destroys l : src_fires (EvDestroy <$> l) = 0.
Proof.
  unfold src_fires. induction l as [|c l IH]; [done|].
  rewrite fmap_cons, filter_cons_False by (simpl; discriminate). done.
Qed.

Lemma step_counts a w :
  issued (exec (do_action a) w) = issued w + accepted_sets [a]
  ∧ ∃ es, events (exec (do_action a) w) = events w ++ es
          ∧ src_fires es = accepted_sets [a].
Proof.
  destruct a as [v| | | | |id|id];
    try (split; [cbn [accepted_sets]; rewrite Nat.add_0_r; reflexivity|];
         exists []; by rewrite app_nil_r);
    cbn [do_action accepted_sets]; rewrite ?Nat.add_0_r.
  - destruct (accepts v) eqn:Ha.
    + apply accepts_split in Ha as [Ht Hs]. split.
      * unfold issued. rewrite src_set_accepted by done. simpl. lia.
      * eexists. split; [by apply src_set_accepted_events|].
        by rewrite src_fires_app, src_fires_destroys.
    + destruct (src_set_cases v w) as [->|[->|[Ht Hs]]].
      * split; [lia|]. exists []. by rewrite app_nil_r.
      * split; [unfold issued; simpl; lia|].
        exists [EvError "Value for 'src' should be a string"].
        split; [|done]. unfold events. simpl. by rewrite fmap_app.
      * unfold accepts in Ha. rewrite Ht, Hs in Ha. discriminate.
  - change (exec _destroy w) with (exec _clear w). split.
    + unfold issued. rewrite _clear_loader. lia.
    + eexists. split; [apply _clear_events|]. apply src_fires_destroys.
  - destruct (Loader_deliver_cases id w) as [->|[r ->]];
      (split; [unfold issued; simpl; lia|]; exists []; by rewrite app_nil_r).
  - destruct (find_request id w) as [q|] eqn:Hq.
    + rewrite (Loader_complete_found _ _ _ Hq). split; [unfold issued; simpl; lia|].
      exists [EvFire "loaded" []]. split; [|done].
      unfold events. simpl. by rewrite fmap_app.
    + rewrite Loader_complete_missing by done.
      split; [lia|]. exists []. by rewrite app_nil_r.
Qed.

Lemma accepted_sets_cons a acts :
  accepted_sets (a :: acts) = accepted_sets [a] + accepted_sets acts.
Proof. destruct a; simpl; lia. Qed.

Lemma run_counts acts w :
  issued (run acts w) = issued w + accepted_sets acts
  ∧ ∃ es, events (run acts w) = events w ++ es ∧ src_fires es = accepted_sets acts.
Proof.
  revert w. induction acts as [|a acts IH]; intros w.
  - split; [simpl; lia|]. exists []. by rewrite app_nil_r.
  - rewrite run_cons, accepted_sets_cons.
    destruct (IH (exec (do_action a) w)) as (Hi & es2 & He2 & Hs2).
    destruct (step_counts a w) as (Hi1 & es1 & He1 & Hs1).
    split; [lia|]. exists (es1 ++ es2). split.
    + by rewrite He2, He1, app_assoc.
    + rewrite src_fires_app. lia.
Qed.

(** X6: over any run, the loader is asked to load exactly once and
    ["src"] is fired exactly once for each assignment the setter accepts;
    nothing else the Model does issues a load or fires ["src"]. *)
Theorem loads_match_accepted_assignments acts w :
  issued (run acts w) = issued w + accepted_sets acts
  ∧ src_fires (events_since (length (events w)) (run acts w)) = accepted_sets acts.
Proof.
  destruct (run_counts acts w) as (Hi & es & He & Hs).
  split; [done|]. unfold events_since. by rewrite He, drop_app_length.
Qed.

(** ** The sink of every load *)

Lemma step_request a w q :
  q ∈ pending (exec (do_action a) w) →
  q ∈ pending w ∨ (∃ v, accepts v = true ∧ q = request_of w v).
Proof.
  destruct a as [v| | | | |id|id]; try (by left); cbn [do_action].
  - destruct (accepts v) eqn:Ha.
    + pose proof Ha as [Ht Hs]%accepts_split.
      rewrite src_set_accepted_pending by done.
      intros [Hin| ->%list_elem_of_singleton]%elem_of_app; [by left|].
      right. by exists v.
    + unfold pending. destruct (src_set_rejected_fields v w Ha) as (_ & _ & -> & _).
      by left.
  - change (exec _destroy w) with (exec _clear w). unfold pending.
    rewrite _clear_loader. by left.
  - unfold pending. destruct (Loader_deliver_cases id w) as [->|[r ->]]; by left.
  - destruct (find_request id w) as [q'|] eqn:Hq.
    + rewrite (Loader_complete_found _ _ _ Hq). unfold pending. simpl.
      intros Hin%list_elem_of_filter. left. tauto.
    + rewrite Loader_complete_missing by done. by left.
Qed.

Lemma run_request acts w q :
  q ∈ pending (run acts w) →
  q ∈ pending w
  ∨ (req_sink q = Some (_collection (this w)) ∧ req_callback q = CbFireLoaded
     ∧ accepts (req_path q) = true).
Proof.
  revert w. induction acts as [|a acts IH]; intros w; [by left|].
  rewrite run_cons. intros [Hq|Hq]%IH.
  - apply step_request in Hq as [Hq|(v & Hv & ->)]; [by left|]. by right.
  - right. by rewrite step_collection in Hq.
Qed.

(** X7: every request outstanding at the loader was either there before
    the Model was constructed or was issued by the Model, and then its sink
    is the Model's one collection, its callback is the one that fires
    ["loaded"], and its path is a value the setter accepts.  Loads of
    different paths therefore all deliver into the same collection. *)
Theorem requests_use_the_one_collection cfg e acts q :
  q ∈ pending (run acts (_init cfg e)) →
  q ∈ ldr_pending (glTFLoader e)
  ∨ (req_sink q = Some (fst (collection_get (run acts (_init cfg e))))
     ∧ req_callback q = CbFireLoaded
     ∧ accepts (req_path q) = true).
Proof.
  intros Hq. unfold collection_get, gets. simpl. rewrite run_collection.
  apply run_request in Hq as [Hq|Hq]; [|by right].
  destruct (rejected cfg) eqn:Hr.
  - rewrite _init_rejected in Hq by done. by left.
  - rewrite _init_accepted in * by done. unfold pending in Hq. simpl in *.
    apply elem_of_app in Hq as [Hq| ->%list_elem_of_singleton]; [by left|].
    right. simpl. split; [done|]. split; [done|].
    unfold rejected in Hr. unfold accepts.
    by destruct (truthy (cfg_src cfg)), (_isString (cfg_src cfg)).
Qed.

(** The theorem at the superseded request of [world_ab]. *)
Lemma requests_use_the_one_collection_witness :
  pending world_ab
  = [request_of (constructed env0) (VString "a.gltf");
     request_of world_a (VString "b.gltf")]
  ∧ (request_of (constructed env0) (VString "a.gltf") ∈ ldr_pending (glTFLoader env0)
     ∨ (req_sink (request_of (constructed env0) (VString "a.gltf"))
        = Some (fst (collection_get
                       (run [ASetSrc (VString "b.gltf")]
                          (_init {| cfg_src := VString "a.gltf" |} env0))))
        ∧ req_callback (request_of (constructed env0) (VString "a.gltf")) = CbFireLoaded
        ∧ accepts (req_path (request_of (constructed env0) (VString "a.gltf"))) = true)).
Proof.
  assert (pending world_ab
          = [request_of (constructed env0) (VString "a.gltf");
             request_of world_a (VString "b.gltf")]) as Hp
    by (vm_compute; reflexivity).
  split; [exact Hp|].
  apply (requests_use_the_one_collection {| cfg_src := VString "a.gltf" |} env0
           [ASetSrc (VString "b.gltf")]).
  change (request_of (constructed env0) (VString "a.gltf") ∈ pending world_ab).
  rewrite Hp. left.
Defined.

(** ** Who adds members *)

(** X8: no method of the Model adds a component to any collection: after
    a step that is not a delivery of the loader, every member of every
    collection was a member before. *)
Theorem only_deliveries_add_members a w r x :
  is_delivery a = false →
  x ∈ coll (env (exec (do_action a) w)) r → x ∈ coll (env w) r.
Proof.
  intros Ha. unfold coll.
  destruct a as [v| | | | |id|id]; simpl; try done.
  - destruct (src_set_cases v w) as [->|[->|[Ht Hs]]]; [done|done|].
    rewrite src_set_accepted by done. simpl. rewrite purge_lookup.
    intros Hx%list_elem_of_filter. tauto.
  - unfold _destroy, exec. rewrite _clear_run, destroy_list_run. simpl.
    rewrite purge_lookup. intros Hx%list_elem_of_filter. tauto.
  - destruct (find_request id w) as [q|] eqn:Hq.
    + by rewrite (Loader_complete_found _ _ _ Hq).
    + by rewrite Loader_complete_missing.
Qed.

(** The theorem at a rejected assignment. *)
Lemma only_deliveries_add_members_witness :
  is_delivery (ASetSrc (VNumber 7)) = false
  ∧ (0 ∈ coll (env (exec (do_action (ASetSrc (VNumber 7))) world_loaded)) 0
     → 0 ∈ coll (env world_loaded) 0).
Proof.
  split; [reflexivity|].
  exact (only_deliveries_add_members (ASetSrc (VNumber 7)) world_loaded 0 0 eq_refl).
Defined.
